(** * core-js-101, [src/05-objects-tasks.js]: the rectangle factory and the
    CSS selector builder.

    The builder is a JavaScript object whose methods allocate new objects,
    link them to the builder through the prototype chain and, for
    [stringify], assign to a property of [this].  The embedding therefore
    keeps an explicit heap of objects addressed by locations, with property
    lookup walking the prototype chain, and a small monad threading the
    heap and the JavaScript completions (normal return or [throw]). *)

From Stdlib Require Import ZArith Lia PrimFloat.
From Stdlib Require Import Sorted.
From stdpp Require Import base option list strings.

Local Open Scope Z_scope.
Local Open Scope string_scope.
Local Open Scope list_scope.

(** ** Rectangle *)

Module Rect.

(** The object literal [{ width, height, getArea: () => width * height }].
    Numbers are IEEE 754 binary64 values; the arrow function closes over
    the two parameters, not over the fields. *)
Record object := Object {
  width : float;
  height : float;
  getArea : unit → float;
}.

Definition Rectangle (width height : float) : object :=
  {| width := width;
     height := height;
     getArea := λ _, PrimFloat.mul width height |}.

End Rect.

(** ** Objects, heap and property lookup *)

(** Locations are indices into the heap. *)
Abbreviation loc := nat (only parsing).

(** An own property that is absent is [None]; reading a property that is
    found nowhere on the prototype chain yields [undefined], also [None]. *)
Record object := Object {
  currentSelector : option string;
  currentOrder : option Z;
  currentSelectorType : option string;
  proto : option loc;
}.

Abbreviation heap := (list object) (only parsing).

(** The module-level constant [cssSelectorBuilder] is the first object. Its
    prototype, [Object.prototype], has none of the three data properties. *)
Definition cssSelectorBuilder : loc := 0%nat.

Definition builder_object : object :=
  {| currentSelector := Some "";
     currentOrder := Some 0;
     currentSelectorType := Some "";
     proto := None |}.

Definition initial_heap : heap := [builder_object].

(** [[Get]]: the own property if present, else the prototype's. Prototype
    chains are acyclic, so the number of objects bounds the walk. *)
Fixpoint get_prop {A} (field : object → option A) (fuel : nat)
    (h : heap) (l : loc) : option A :=
  match fuel with
  | O => None
  | S fuel' =>
      match h !! l with
      | None => None
      | Some o =>
          match field o with
          | Some v => Some v
          | None =>
              match proto o with
              | Some p => get_prop field fuel' h p
              | None => None
              end
          end
      end
  end.

Definition get {A} (field : object → option A) (h : heap) (l : loc) : option A :=
  get_prop field (length h) h l.

(** ** Completions and the heap monad *)

Inductive exn := Error (message : string).

Inductive completion (A : Type) :=
  | Return (a : A)
  | Throw (e : exn).
Arguments Return {A} a.
Arguments Throw {A} e.

Definition JS (A : Type) : Type := heap → completion A * heap.

Definition ret {A} (a : A) : JS A := λ h, (Return a, h).

Definition bind {A B} (m : JS A) (k : A → JS B) : JS B :=
  λ h, match m h with
       | (Return a, h') => k a h'
       | (Throw e, h') => (Throw e, h')
       end.

Definition throw {A} (e : exn) : JS A := λ h, (Throw e, h).

Notation "'let*' x ':=' m 'in' k" := (bind m (λ x, k))
  (at level 10, x name, m at level 100, k at level 200).
Notation "m ';;;' k" := (bind m (λ _, k))
  (at level 100, k at level 200, right associativity).

(** [x.f] *)
Definition read {A} (field : object → option A) (l : loc) : JS (option A) :=
  λ h, (Return (get field h l), h).

(** An object literal: a new object whose prototype is [Object.prototype]. *)
Definition new_object (sel : option string) (order : option Z)
    (type : option string) : JS loc :=
  λ h, (Return (length h), h ++ [Object sel order type None]).

(** [Object.setPrototypeOf(obj, p)] *)
Definition setPrototypeOf (obj p : loc) : JS unit :=
  λ h, (Return tt,
        alter (λ o, Object (currentSelector o) (currentOrder o)
                      (currentSelectorType o) (Some p)) obj h).

(** [this.currentSelector = s]: an assignment creates or overwrites the own
    property of the receiver. *)
Definition assign_currentSelector (this : loc) (s : string) : JS unit :=
  λ h, (Return tt,
        alter (λ o, Object (Some s) (currentOrder o)
                      (currentSelectorType o) (proto o)) this h).

(** Conversion of a property value inside a template literal. *)
Definition to_string (v : option string) : string :=
  match v with
  | Some s => s
  | None => "undefined"
  end.

(** [a === b] and [a > b] on order values, [t === 'literal'] on type tags;
    [undefined > n] and [n > undefined] are false. *)
Definition strict_eq_order (a b : option Z) : bool :=
  match a, b with
  | Some x, Some y => Z.eqb x y
  | None, None => true
  | _, _ => false
  end.

Definition gt_order (a b : option Z) : bool :=
  match a, b with
  | Some x, Some y => Z.ltb y x
  | _, _ => false
  end.

Definition strict_eq_type (t : option string) (literal : string) : bool :=
  match t with
  | Some s => String.eqb s literal
  | None => false
  end.

(** ** The builder's methods *)

Definition DuplicateUniquePartError : exn :=
  Error "Element, id and pseudo-element should not occur more then one time inside the selector".

Definition OutOfOrderError : exn :=
  Error "Selector parts should be arranged in the following order: element, id, class, attribute, pseudo-class, pseudo-element".

Definition stringify (this : loc) : JS (option string) :=
  let* currentSelector := read currentSelector this in
  assign_currentSelector this "";;;
  ret currentSelector.

Definition checkCurrentOrder (this object : loc) : JS unit :=
  let* this_order := read currentOrder this in
  let* object_order := read currentOrder object in
  let* object_type := read currentSelectorType object in
  if strict_eq_order this_order object_order
     && (strict_eq_type object_type "element"
         || strict_eq_type object_type "id"
         || strict_eq_type object_type "pseudoElement")
  then throw DuplicateUniquePartError
  else
    if gt_order this_order object_order
    then throw OutOfOrderError
    else ret tt.

Definition element (this : loc) (value : string) : JS loc :=
  let* sel := read currentSelector this in
  let* obj := new_object (Some (to_string sel +:+ value)) (Some 1) (Some "element") in
  setPrototypeOf obj cssSelectorBuilder;;;
  checkCurrentOrder this obj;;;
  ret obj.

Definition id (this : loc) (value : string) : JS loc :=
  let* sel := read currentSelector this in
  let* obj := new_object (Some (to_string sel +:+ "#" +:+ value)) (Some 2) (Some "id") in
  setPrototypeOf obj cssSelectorBuilder;;;
  checkCurrentOrder this obj;;;
  ret obj.

Definition class (this : loc) (value : string) : JS loc :=
  let* sel := read currentSelector this in
  let* obj := new_object (Some (to_string sel +:+ "." +:+ value)) (Some 3) (Some "class") in
  setPrototypeOf obj cssSelectorBuilder;;;
  checkCurrentOrder this obj;;;
  ret obj.

Definition attr (this : loc) (value : string) : JS loc :=
  let* sel := read currentSelector this in
  let* obj := new_object (Some (to_string sel +:+ "[" +:+ value +:+ "]")) (Some 4) (Some "attr") in
  setPrototypeOf obj cssSelectorBuilder;;;
  checkCurrentOrder this obj;;;
  ret obj.

Definition pseudoClass (this : loc) (value : string) : JS loc :=
  let* sel := read currentSelector this in
  let* obj := new_object (Some (to_string sel +:+ ":" +:+ value)) (Some 5) (Some "pseudoClass") in
  setPrototypeOf obj cssSelectorBuilder;;;
  checkCurrentOrder this obj;;;
  ret obj.

Definition pseudoElement (this : loc) (value : string) : JS loc :=
  let* sel := read currentSelector this in
  let* obj := new_object (Some (to_string sel +:+ "::" +:+ value)) (Some 6) (Some "pseudoElement") in
  setPrototypeOf obj cssSelectorBuilder;;;
  checkCurrentOrder this obj;;;
  ret obj.

(** The literal of [combine] has a single own property; order and type are
    inherited from the builder. *)
Definition combine (selector1 : loc) (combinator : string) (selector2 : loc) : JS loc :=
  let* s1 := read currentSelector selector1 in
  let* s2 := read currentSelector selector2 in
  let* obj := new_object
      (Some (to_string s1 +:+ " " +:+ combinator +:+ " " +:+ to_string s2))
      None None in
  setPrototypeOf obj cssSelectorBuilder;;;
  ret obj.

(** ** Fragment categories

    The six fragment methods, indexed by category, with the tables of the
    specification: rank, fragment text, and which categories are unique.
    [kind] is the tag the source stores in [currentSelectorType]. *)

Inductive category := Element | Id | Class | Attr | PseudoClass | PseudoElement.

Definition call (c : category) : loc → string → JS loc :=
  match c with
  | Element => element
  | Id => id
  | Class => class
  | Attr => attr
  | PseudoClass => pseudoClass
  | PseudoElement => pseudoElement
  end.

Definition rank (c : category) : Z :=
  match c with
  | Element => 1
  | Id => 2
  | Class => 3
  | Attr => 4
  | PseudoClass => 5
  | PseudoElement => 6
  end.

Definition kind (c : category) : string :=
  match c with
  | Element => "element"
  | Id => "id"
  | Class => "class"
  | Attr => "attr"
  | PseudoClass => "pseudoClass"
  | PseudoElement => "pseudoElement"
  end.

Definition fragment (c : category) (value : string) : string :=
  match c with
  | Element => value
  | Id => "#" +:+ value
  | Class => "." +:+ value
  | Attr => "[" +:+ value +:+ "]"
  | PseudoClass => ":" +:+ value
  | PseudoElement => "::" +:+ value
  end.

Definition unique (c : category) : bool :=
  match c with
  | Element | Id | PseudoElement => true
  | Class | Attr | PseudoClass => false
  end.

(** A chain [builder.m1(v1).m2(v2)...] started on the state [this]. *)
Fixpoint chain (parts : list (category * string)) (this : loc) : JS loc :=
  match parts with
  | [] => ret this
  | (c, value) :: parts' => let* next := call c this value in chain parts' next
  end.

(** ** Heaps the builder produces

    The first object is the builder, never changed by its own methods (its
    text is empty and [stringify] stores the empty string); every other
    object was linked to the builder and owns its text. *)

Definition is_builder_object (o : object) : bool :=
  match o with
  | Object (Some s) (Some n) (Some t) None =>
      String.eqb s "" && Z.eqb n 0 && String.eqb t ""
  | _ => false
  end.

Definition is_state_object (o : object) : bool :=
  match o with
  | Object (Some _) _ _ (Some p) => Nat.eqb p cssSelectorBuilder
  | _ => false
  end.

Definition wf (h : heap) : bool :=
  match h with
  | [] => false
  | o :: rest => is_builder_object o && forallb is_state_object rest
  end.

(** The order and the text a state shows to its methods. *)
Definition order_of (o : object) : Z := default 0 (currentOrder o).
Definition text_of (o : object) : string := to_string (currentSelector o).

(** The builder's calls as commands, to speak of the heaps reachable by any
    sequence of calls. *)
Inductive command :=
  | CallFragment (c : category) (this : loc) (value : string)
  | CallCombine (selector1 : loc) (combinator : string) (selector2 : loc)
  | CallStringify (this : loc).

Definition exec (h : heap) (cmd : command) : heap :=
  match cmd with
  | CallFragment c this value => snd (call c this value h)
  | CallCombine s1 c s2 => snd (combine s1 c s2 h)
  | CallStringify this => snd (stringify this h)
  end.

Definition is_chaining (cmd : command) : bool :=
  match cmd with
  | CallStringify _ => false
  | _ => true
  end.

(** ** Running programs from the initial heap *)

Definition run {A} (m : JS A) : completion A := fst (m initial_heap).

(** ** What each method computes *)

(** The verdict of [checkCurrentOrder] for a receiver of order [r]. *)
Definition verdict (r : Z) (c : category) (l : loc) : completion loc :=
  if Z.eqb r (rank c) && unique c then Throw DuplicateUniquePartError
  else if Z.ltb (rank c) r then Throw OutOfOrderError
  else Return l.

Definition fragment_object (o : object) (c : category) (value : string) : object :=
  Object (Some (text_of o +:+ fragment c value)) (Some (rank c))
    (Some (kind c)) (Some cssSelectorBuilder).

Definition combined_object (h : heap) (s1 : loc) (c : string) (s2 : loc) : object :=
  Object (Some (to_string (get currentSelector h s1) +:+ " " +:+ c +:+ " "
                +:+ to_string (get currentSelector h s2)))
    None None (Some cssSelectorBuilder).

Definition clear_text (o : object) : object :=
  Object (Some "") (currentOrder o) (currentSelectorType o) (proto o).

(** The call [m], if it returns, returns a location that was not in the
    heap, reading [text], [order] and [type] through its properties. *)
Definition returns_new_state (h : heap) (m : JS loc)
    (text : string) (order : Z) (type : string) : Prop :=
  ∀ l h', m h = (Return l, h') →
    h !! l = None
    ∧ get currentSelector h' l = Some text
    ∧ get currentOrder h' l = Some order
    ∧ get currentSelectorType h' l = Some type.

(** Heaps reachable from the module's initial state by calls to the
    builder's methods. *)
Definition reachable (h : heap) : Prop := ∃ cmds, h = foldl exec initial_heap cmds.

(** ** Pure descriptions of a chain

    What the calls of a chain amount to, without the heap: the first error
    met when parts of the given categories are appended in turn to a state
    of order [r], and the text the parts spell. *)

Fixpoint first_error (r : Z) (cats : list category) : option exn :=
  match cats with
  | [] => None
  | c :: cats' =>
      if Z.eqb r (rank c) && unique c then Some DuplicateUniquePartError
      else if Z.ltb (rank c) r then Some OutOfOrderError
      else first_error (rank c) cats'
  end.

Fixpoint selector_text (parts : list (category * string)) : string :=
  match parts with
  | [] => ""
  | (c, value) :: parts' => fragment c value +:+ selector_text parts'
  end.

(** The order between any two parts of a selector, adjacent or not: ranks
    do not decrease, and a category that occurs twice is not a unique one. *)
Definition may_precede (c1 c2 : category) : Prop :=
  (rank c1 ≤ rank c2)%Z ∧ (c1 = c2 → unique c1 = false).

(** The same towards the order [r] of the state the chain starts on. *)
Definition may_follow_order (r : Z) (c : category) : Prop :=
  (r ≤ rank c)%Z ∧ (rank c = r → unique c = false).

(** The order and type an object owns: none for the result of [combine],
    else those of one category. *)
Definition tagged (o : object) : Prop :=
  (currentOrder o = None ∧ currentSelectorType o = None)
  ∨ ∃ c, currentOrder o = Some (rank c) ∧ currentSelectorType o = Some (kind c).

Definition all_tagged (h : heap) : Prop :=
  ∀ l o, l ≠ cssSelectorBuilder → h !! l = Some o → tagged o.

(** ** Basic facts *)

Example doc_example_1 :
  run (let* a := id cssSelectorBuilder "main" in
       let* b := class a "container" in
       let* c := class b "editable" in
       stringify c)
  = Return (Some "#main.container.editable").
Proof. vm_compute. reflexivity. Qed.


Lemma errors_differ : DuplicateUniquePartError ≠ OutOfOrderError.
Proof. discriminate. Qed.

Lemma rank_inj c1 c2 : rank c1 = rank c2 → c1 = c2.
Proof. destruct c1, c2; simpl; intros; try reflexivity; lia. Qed.

Lemma rank_pos c : (1 ≤ rank c ≤ 6)%Z.
Proof. destruct c; simpl; lia. Qed.

Lemma is_builder_object_eq o : is_builder_object o → o = builder_object.
Proof.
  destruct o as [[s|] [n|] [t|] [p|]]; simpl; try done.
  rewrite !andb_True. intros [[Hs Hn] Ht].
  apply Is_true_true, String.eqb_eq in Hs, Ht.
  apply Is_true_true, Z.eqb_eq in Hn. by subst.
Qed.

Lemma is_state_object_inv o :
  is_state_object o →
  ∃ s, currentSelector o = Some s ∧ proto o = Some cssSelectorBuilder.
Proof.
  destruct o as [[s|] n t [p|]]; simpl; try done.
  intros Hp. apply Is_true_true, Nat.eqb_eq in Hp. subst. by exists s.
Qed.

Lemma wf_root h : wf h → h !! cssSelectorBuilder = Some builder_object.
Proof.
  destruct h as [|o rest]; simpl; [done|].
  rewrite andb_True. intros [Ho _]. by rewrite (is_builder_object_eq o Ho).
Qed.

Lemma wf_state h l o :
  wf h → l ≠ cssSelectorBuilder → h !! l = Some o → is_state_object o.
Proof.
  destruct h as [|r rest]; simpl; [done|].
  rewrite andb_True. intros [_ Hrest] Hl Hlook.
  destruct l as [|l]; [done|]. simpl in Hlook.
  apply Is_true_true in Hrest. rewrite forallb_forall in Hrest.
  apply Is_true_true, Hrest, list_elem_of_In, list_elem_of_lookup. eauto.
Qed.

Lemma wf_initial : wf initial_heap.
Proof. done. Qed.

Lemma wf_app h o : wf h → is_state_object o → wf (h ++ [o]).
Proof.
  destruct h as [|r rest]; simpl; [done|].
  rewrite !andb_True. intros [Hr Hrest] Ho. split; [done|].
  apply Is_true_true. rewrite forallb_app. simpl.
  apply Is_true_true in Hrest, Ho. by rewrite Hrest, Ho.
Qed.

(** ** Property lookup on well-formed heaps *)

Lemma get_wf {A} (field : object → option A) h l o :
  wf h → h !! l = Some o →
  get field h l
  = match field o with Some v => Some v | None => field builder_object end.
Proof.
  intros Hwf Hl. unfold get.
  pose proof (wf_root h Hwf) as Hroot.
  pose proof (lookup_lt_Some _ _ _ Hl) as Hlt.
  destruct (decide (l = cssSelectorBuilder)) as [->|Hne].
  - assert (o = builder_object) as -> by congruence.
    destruct (length h) as [|n]; [lia|].
    cbn [get_prop]. rewrite Hroot.
    by destruct (field builder_object).
  - destruct (is_state_object_inv o (wf_state h l o Hwf Hne Hl)) as (s & _ & Hp).
    unfold cssSelectorBuilder in Hne.
    destruct (length h) as [|[|n]]; [lia|lia|].
    cbn [get_prop]. rewrite Hl. destruct (field o); [done|].
    rewrite Hp, Hroot. by destruct (field builder_object).
Qed.

Lemma get_text h l o :
  wf h → h !! l = Some o → get currentSelector h l = Some (text_of o).
Proof.
  intros Hwf Hl. rewrite (get_wf _ h l o Hwf Hl). unfold text_of.
  destruct (decide (l = cssSelectorBuilder)) as [->|Hne].
  - rewrite (wf_root h Hwf) in Hl. by injection Hl as <-.
  - destruct (is_state_object_inv o (wf_state h l o Hwf Hne Hl)) as (s & -> & _).
    done.
Qed.

Lemma get_order h l o :
  wf h → h !! l = Some o → get currentOrder h l = Some (order_of o).
Proof.
  intros Hwf Hl. rewrite (get_wf _ h l o Hwf Hl). unfold order_of.
  by destruct (currentOrder o).
Qed.

Lemma alter_last {A} (f : A → A) (h : list A) (o : A) :
  alter f (length h) (h ++ [o]) = h ++ [f o].
Proof. induction h as [|x h IH]; simpl; [done|]. by rewrite <- IH. Qed.

Lemma lookup_last {A} (h : list A) (o : A) : (h ++ [o]) !! length h = Some o.
Proof. rewrite lookup_app_r by lia. by rewrite Nat.sub_diag. Qed.

Lemma call_spec c this value h o :
  wf h → h !! this = Some o →
  call c this value h
  = (verdict (order_of o) c (length h), h ++ [fragment_object o c value]).
Proof.
  intros Hwf Hl.
  assert (∀ txt, wf (h ++ [Object (Some txt) (Some (rank c)) (Some (kind c))
                              (Some cssSelectorBuilder)])) as Hwf'.
  { intros txt. by apply wf_app. }
  assert (∀ txt, get currentOrder
            (h ++ [Object (Some txt) (Some (rank c)) (Some (kind c))
                     (Some cssSelectorBuilder)]) this = Some (order_of o)) as Hord.
  { intros txt. apply get_order; [done|]. by apply lookup_app_l_Some. }
  unfold fragment_object, verdict.
  destruct c; cbn [call rank kind fragment unique] in *;
    unfold element, id, class, attr, pseudoClass, pseudoElement,
      checkCurrentOrder, bind, read, new_object, setPrototypeOf, ret, throw;
    rewrite (get_text h this o Hwf Hl); cbn [to_string];
    rewrite alter_last; cbn [currentSelector currentOrder currentSelectorType];
    rewrite Hord;
    rewrite (get_wf currentOrder _ (length h) _ (Hwf' _) (lookup_last _ _));
    rewrite (get_wf currentSelectorType _ (length h) _ (Hwf' _) (lookup_last _ _));
    cbn [currentOrder currentSelectorType strict_eq_order gt_order strict_eq_type];
    repeat match goal with |- context [String.eqb ?a ?b] =>
      let v := eval vm_compute in (String.eqb a b) in
      change (String.eqb a b) with v end;
    cbn [orb andb];
    rewrite ?andb_true_r, ?andb_false_r;
    repeat match goal with
      | |- context [Z.eqb ?a ?b] => destruct (Z.eqb a b)
      | |- context [Z.ltb ?a ?b] => destruct (Z.ltb a b)
      end;
    reflexivity.
Qed.

Lemma combine_spec s1 c s2 h :
  combine s1 c s2 h = (Return (length h), h ++ [combined_object h s1 c s2]).
Proof.
  unfold combine, bind, read, new_object, setPrototypeOf, ret, combined_object.
  by rewrite alter_last.
Qed.

Lemma stringify_spec this h :
  stringify this h
  = (Return (get currentSelector h this),
     alter (λ o, Object (Some "") (currentOrder o) (currentSelectorType o)
                   (proto o)) this h).
Proof. reflexivity. Qed.

Lemma append_assoc (s1 s2 s3 : string) :
  (s1 +:+ s2) +:+ s3 = s1 +:+ (s2 +:+ s3).
Proof.
  induction s1 as [|a s1 IH]; [done|].
  change (String a ((s1 +:+ s2) +:+ s3) = String a (s1 +:+ (s2 +:+ s3))).
  by rewrite IH.
Qed.

(** Whatever the receiver and whether or not the check throws, a fragment
    method only adds one object at the end of the heap. *)
Lemma call_heap c this value h :
  ∃ txt, snd (call c this value h)
         = h ++ [Object (Some txt) (Some (rank c)) (Some (kind c))
                   (Some cssSelectorBuilder)].
Proof.
  destruct c; cbn [call rank kind];
    unfold element, id, class, attr, pseudoClass, pseudoElement,
      checkCurrentOrder, bind, read, new_object, setPrototypeOf, ret, throw;
    rewrite alter_last; cbn [currentSelector currentOrder currentSelectorType];
    eexists;
    repeat match goal with
      | |- context [if ?b then _ else _] => destruct b
      end;
    reflexivity.
Qed.

Lemma exec_chaining h cmd :
  is_chaining cmd → ∃ o, exec h cmd = h ++ [o] ∧ is_state_object o.
Proof.
  destruct cmd as [c this value|s1 c s2|this]; cbn [exec is_chaining];
    [| |done]; intros _.
  - destruct (call_heap c this value h) as [txt ->]. by eexists.
  - rewrite combine_spec. by eexists.
Qed.

Lemma exec_stringify h this : exec h (CallStringify this) = alter clear_text this h.
Proof. reflexivity. Qed.

Lemma wf_alter h this : wf h → wf (alter clear_text this h).
Proof.
  destruct h as [|r rest]; [done|].
  destruct this as [|n]; simpl; rewrite !andb_True; intros [Hr Hrest].
  - assert (r = builder_object) as -> by (by apply is_builder_object_eq).
    by split.
  - split; [done|].
    change (list_alter clear_text n rest) with (alter clear_text n rest).
    apply Is_true_true, forallb_forall.
    intros o Ho%list_elem_of_In%list_elem_of_lookup. destruct Ho as [i Hi].
    apply Is_true_true in Hrest. rewrite forallb_forall in Hrest.
    destruct (decide (n = i)) as [->|Hne].
    + rewrite list_lookup_alter_eq in Hi.
      destruct (rest !! i) as [o'|] eqn:Ho'; [|done].
      injection Hi as <-.
      assert (is_state_object o' = true) as Hs.
      { apply Hrest, list_elem_of_In, list_elem_of_lookup. eauto. }
      by destruct o' as [[?|] ? ? [?|]].
    + rewrite list_lookup_alter_ne in Hi by done.
      apply Hrest, list_elem_of_In, list_elem_of_lookup. eauto.
Qed.

Lemma wf_exec h cmd : wf h → wf (exec h cmd).
Proof.
  intros Hwf. destruct (is_chaining cmd) eqn:Hc.
  - destruct (exec_chaining h cmd) as (o & -> & Ho); [by rewrite Hc|].
    by apply wf_app.
  - destruct cmd; try discriminate. rewrite exec_stringify. by apply wf_alter.
Qed.

Lemma wf_foldl_exec cmds h : wf h → wf (foldl exec h cmds).
Proof.
  revert h. induction cmds as [|cmd cmds IH]; intros h Hwf; simpl; [done|].
  by apply IH, wf_exec.
Qed.

(** Heaps reachable by calls to the builder's methods are well formed. *)
Lemma reachable_wf h : reachable h → wf h.
Proof. intros [cmds ->]. apply wf_foldl_exec, wf_initial. Qed.

(** No call changes the order, the type or the prototype of an existing
    object, and a text that is empty stays empty. *)
Lemma exec_lookup h cmd l o :
  h !! l = Some o →
  ∃ o', exec h cmd !! l = Some o'
        ∧ currentOrder o' = currentOrder o
        ∧ (currentSelector o = Some "" → currentSelector o' = Some "").
Proof.
  intros Hl. destruct (is_chaining cmd) eqn:Hc.
  - destruct (exec_chaining h cmd) as (o' & -> & _); [by rewrite Hc|].
    exists o. split; [by apply lookup_app_l_Some|done].
  - destruct cmd as [| |this]; try discriminate. rewrite exec_stringify.
    destruct (decide (this = l)) as [->|Hne].
    + exists (clear_text o). by rewrite list_lookup_alter_eq, Hl.
    + exists o. by rewrite list_lookup_alter_ne.
Qed.

Lemma foldl_exec_lookup cmds h l o :
  h !! l = Some o →
  ∃ o', foldl exec h cmds !! l = Some o'
        ∧ currentOrder o' = currentOrder o
        ∧ (currentSelector o = Some "" → currentSelector o' = Some "").
Proof.
  revert h o. induction cmds as [|cmd cmds IH]; intros h o Hl; simpl.
  - by exists o.
  - destruct (exec_lookup h cmd l o Hl) as (o1 & Hl1 & Ho1 & Ht1).
    destruct (IH _ _ Hl1) as (o2 & Hl2 & Ho2 & Ht2).
    exists o2. split; [done|]. split; [congruence|]. auto.
Qed.

Lemma get_lookup {A} (field : object → option A) h l v :
  get field h l = Some v → ∃ o, h !! l = Some o.
Proof.
  unfold get. destruct (length h); cbn [get_prop]; [done|].
  destruct (h !! l) as [o|]; [by exists o|done].
Qed.

Lemma order_of_fragment o c value : order_of (fragment_object o c value) = rank c.
Proof. reflexivity. Qed.

Lemma call_returns c this value h o :
  wf h → h !! this = Some o →
  (order_of o = rank c → unique c = false) → (order_of o ≤ rank c)%Z →
  call c this value h = (Return (length h), h ++ [fragment_object o c value]).
Proof.
  intros Hwf Hl Hdup Hle. rewrite (call_spec c this value h o Hwf Hl).
  unfold verdict. destruct (Z.eqb_spec (order_of o) (rank c)) as [He|Hne].
  - rewrite (Hdup He). cbn [andb]. by destruct (Z.ltb_spec (rank c) (order_of o)); [lia|].
  - cbn [andb]. by destruct (Z.ltb_spec (rank c) (order_of o)); [lia|].
Qed.

Lemma call_returns_inv c this value h o l h' :
  wf h → h !! this = Some o → call c this value h = (Return l, h') →
  l = length h ∧ h' = h ++ [fragment_object o c value]
  ∧ (order_of o ≤ rank c)%Z ∧ (order_of o = rank c → unique c = false).
Proof.
  intros Hwf Hl. rewrite (call_spec c this value h o Hwf Hl). unfold verdict.
  destruct (Z.eqb_spec (order_of o) (rank c)) as [He|Hne]; cbn [andb].
  - destruct (unique c); [done|].
    destruct (Z.ltb_spec (rank c) (order_of o)); [done|].
    intros [= <- <-]. repeat split; try done; lia.
  - destruct (Z.ltb_spec (rank c) (order_of o)); [done|].
    intros [= <- <-]. repeat split; try done; lia.
Qed.

(** Along a chain that returns, the orders never decrease, and the final
    state carries the rank of the last part. *)
Lemma chain_inv parts : ∀ this h o l h',
  wf h → h !! this = Some o → chain parts this h = (Return l, h') →
  wf h' ∧ ∃ o', h' !! l = Some o'
    ∧ (order_of o ≤ order_of o')%Z
    ∧ (∀ c, c ∈ parts.*1 → (rank c ≤ order_of o')%Z)
    ∧ order_of o' = from_option rank (order_of o) (last parts.*1).
Proof.
  induction parts as [|[c v] parts IH]; intros this h o l h' Hwf Hl Hrun.
  - injection Hrun as <- <-. split; [done|]. exists o.
    split; [done|]. split; [lia|]. split; [|done].
    intros c Hc. by apply elem_of_nil in Hc.
  - cbn [chain] in Hrun. unfold bind in Hrun.
    destruct (call c this v h) as [[next|e] h1] eqn:Hcall; [|done].
    destruct (call_returns_inv c this v h o next h1 Hwf Hl Hcall)
      as (-> & -> & Hle & _).
    assert (wf (h ++ [fragment_object o c v])) as Hwf1 by (by apply wf_app).
    destruct (IH _ _ (fragment_object o c v) _ _ Hwf1 (lookup_last _ _) Hrun)
      as (Hwf' & o' & Hl' & Hmono & Hall & Hlast).
    rewrite order_of_fragment in Hmono, Hlast.
    split; [done|]. exists o'. split; [done|]. split; [lia|]. split.
    + intros c' Hc'. rewrite fmap_cons in Hc'. cbn [fst] in Hc'.
      apply elem_of_cons in Hc' as [->|Hc']; [lia|by apply Hall].
    + rewrite fmap_cons, last_cons. cbn [fst].
      by destruct (last parts.*1).
Qed.

Lemma call_new_state c this value h o :
  wf h → h !! this = Some o →
  returns_new_state h (call c this value)
    (text_of o +:+ fragment c value) (rank c) (kind c).
Proof.
  intros Hwf Hl l h' Hcall.
  destruct (call_returns_inv c this value h o l h' Hwf Hl Hcall)
    as (-> & -> & _ & _).
  assert (wf (h ++ [fragment_object o c value])) as Hwf' by (by apply wf_app).
  split; [by apply lookup_ge_None_2|].
  rewrite !(get_wf _ _ _ _ Hwf' (lookup_last _ _)). done.
Qed.

Lemma combine_returns s1 c s2 h o1 o2 :
  wf h → h !! s1 = Some o1 → h !! s2 = Some o2 →
  let h' := h ++ [Object (Some (text_of o1 +:+ " " +:+ c +:+ " " +:+ text_of o2))
                    None None (Some cssSelectorBuilder)] in
  combine s1 c s2 h = (Return (length h), h')
  ∧ wf h'
  ∧ get currentSelector h' (length h)
    = Some (text_of o1 +:+ " " +:+ c +:+ " " +:+ text_of o2).
Proof.
  intros Hwf H1 H2 h'. subst h'.
  rewrite combine_spec. unfold combined_object.
  rewrite (get_text h s1 o1 Hwf H1), (get_text h s2 o2 Hwf H2). cbn [to_string].
  split; [done|].
  match goal with |- Is_true (wf ?x) ∧ _ => assert (wf x) as Hwf' by (by apply wf_app) end.
  split; [done|].
  by rewrite (get_wf _ _ _ _ Hwf' (lookup_last _ _)).
Qed.

Lemma get_text_inv h l t :
  wf h → get currentSelector h l = Some t →
  ∃ o, h !! l = Some o ∧ text_of o = t.
Proof.
  intros Hwf Hget. destruct (get_lookup _ _ _ _ Hget) as [o Hl].
  exists o. split; [done|]. rewrite (get_text h l o Hwf Hl) in Hget. congruence.
Qed.

Lemma get_order_inv h l r :
  wf h → get currentOrder h l = Some r →
  ∃ o, h !! l = Some o ∧ order_of o = r.
Proof.
  intros Hwf Hget. destruct (get_lookup _ _ _ _ Hget) as [o Hl].
  exists o. split; [done|]. rewrite (get_order h l o Hwf Hl) in Hget. congruence.
Qed.

(** ** The ordering check *)

(** C1, amended: once a chain holds a part of a unique category (element,
    id, pseudo-element), appending that category again always throws; the
    error is DuplicateUniquePartError when that part was the last one
    appended, and OutOfOrderError when other parts came in between. *)
Theorem second_unique_part_is_rejected h this parts l h' c value :
  wf h → (this < length h)%nat →
  chain parts this h = (Return l, h') →
  unique c → c ∈ parts.*1 →
  (last parts.*1 = Some c →
     fst (call c l value h') = Throw DuplicateUniquePartError)
  ∧ (last parts.*1 ≠ Some c →
     fst (call c l value h') = Throw OutOfOrderError).
Proof.
  intros Hwf Hthis Hrun Hu Hin.
  destruct (lookup_lt_is_Some_2 h this Hthis) as [o Hl].
  destruct (chain_inv parts this h o l h' Hwf Hl Hrun)
    as (Hwf' & o' & Hl' & _ & Hall & Hlast).
  rewrite (call_spec c l value h' o' Hwf' Hl'). cbn [fst]. unfold verdict.
  apply Is_true_true in Hu. rewrite Hu, andb_true_r.
  split.
  - intros Hc. rewrite Hc in Hlast. cbn [from_option] in Hlast.
    by rewrite Hlast, Z.eqb_refl.
  - intros Hc. specialize (Hall c Hin).
    destruct (last parts.*1) as [c'|] eqn:Hc'.
    + cbn [from_option] in Hlast.
      assert (rank c ≠ rank c') by (intros ?%rank_inj; congruence).
      destruct (Z.eqb_spec (order_of o') (rank c)); [lia|].
      by destruct (Z.ltb_spec (rank c) (order_of o')); [|lia].
    + apply last_None in Hc'. rewrite Hc' in Hin. by apply elem_of_nil in Hin.
Qed.

(** C1 as stated fails: in [builder.element('div').id('main').element('span')]
    the second element is rejected with the ordering error, not with the
    duplicate error. *)
Lemma duplicate_after_other_parts_is_OutOfOrderError :
  run (let* a := element cssSelectorBuilder "div" in
       let* b := id a "main" in
       element b "span")
  = Throw OutOfOrderError
  ∧ @Throw loc OutOfOrderError ≠ Throw DuplicateUniquePartError.
Proof. split; [vm_compute; reflexivity|discriminate]. Qed.

Lemma second_unique_part_is_rejected_witness :
  fst (call Element 2%nat "span"
         (snd (chain [(Element, "div"); (Id, "main")] cssSelectorBuilder
                 initial_heap)))
  = Throw OutOfOrderError
  ∧ fst (call Element 1%nat "span"
           (snd (chain [(Element, "div")] cssSelectorBuilder initial_heap)))
    = Throw DuplicateUniquePartError.
Proof.
  split.
  - refine (proj2 (second_unique_part_is_rejected initial_heap
                     cssSelectorBuilder [(Element, "div"); (Id, "main")] 2%nat
                     _ Element "span" _ _ _ _ _) _).
    + exact I.
    + vm_compute. lia.
    + vm_compute. reflexivity.
    + exact I.
    + simpl. apply list_elem_of_here.
    + simpl. discriminate.
  - refine (proj1 (second_unique_part_is_rejected initial_heap
                     cssSelectorBuilder [(Element, "div")] 1%nat
                     _ Element "span" _ _ _ _ _) _).
    + exact I.
    + vm_compute. lia.
    + vm_compute. reflexivity.
    + exact I.
    + simpl. apply list_elem_of_here.
    + reflexivity.
Defined.

(** C2: appending a part whose rank is below the order of the receiver
    throws OutOfOrderError; in particular [element] on a state returned by
    [id] does. *)
Theorem lower_rank_raises_OutOfOrderError :
  (∀ h this r c value,
     wf h → get currentOrder h this = Some r → (rank c < r)%Z →
     fst (call c this value h) = Throw OutOfOrderError)
  ∧ (∀ h this v1 v2 l h',
       wf h → (this < length h)%nat → id this v1 h = (Return l, h') →
       fst (element l v2 h') = Throw OutOfOrderError).
Proof.
  assert (∀ h this r c value,
     wf h → get currentOrder h this = Some r → (rank c < r)%Z →
     fst (call c this value h) = Throw OutOfOrderError) as Hgen.
  { intros h this r c value Hwf Hget Hlt.
    destruct (get_order_inv h this r Hwf Hget) as (o & Hl & Ho).
    rewrite (call_spec c this value h o Hwf Hl). cbn [fst]. unfold verdict.
    destruct (Z.eqb_spec (order_of o) (rank c)); [lia|]. cbn [andb].
    by destruct (Z.ltb_spec (rank c) (order_of o)); [|lia]. }
  split; [exact Hgen|].
  intros h this v1 v2 l h' Hwf Hthis Hid.
  destruct (lookup_lt_is_Some_2 h this Hthis) as [o Hl].
  destruct (call_returns_inv Id this v1 h o l h' Hwf Hl Hid) as (-> & -> & _ & _).
  assert (wf (h ++ [fragment_object o Id v1])) as Hwf' by (by apply wf_app).
  apply (Hgen _ _ 2%Z Element v2 Hwf'); [|done].
  by rewrite (get_order _ _ _ Hwf' (lookup_last _ _)).
Qed.

Lemma lower_rank_raises_OutOfOrderError_witness :
  fst (call Element 1%nat "div" (snd (id cssSelectorBuilder "main" initial_heap)))
  = Throw OutOfOrderError
  ∧ run (let* a := id cssSelectorBuilder "main" in element a "div")
    = Throw OutOfOrderError.
Proof.
  split.
  - refine (proj1 lower_rank_raises_OutOfOrderError _ 1%nat 2%Z Element "div"
              _ _ _).
    + vm_compute. exact I.
    + vm_compute. reflexivity.
    + simpl. lia.
  - refine (proj2 lower_rank_raises_OutOfOrderError initial_heap
              cssSelectorBuilder "main" "div" 1%nat _ _ _ _).
    + exact I.
    + vm_compute. lia.
    + vm_compute. reflexivity.
Defined.

(** ** Texts *)

(** C3: each fragment method returns whenever the order check passes
    (receiver order below 1 for [element], below 2 for [id], at most 3, 4, 5
    for [class], [attr], [pseudoClass], below 6 for [pseudoElement]), and
    whenever it returns it gives a new state whose text is the receiver's
    text followed by [value], [#value], [.value], [[value]], [:value],
    [::value], with order 1 to 6 and the type tag of the method. *)
Theorem fragment_methods_append_their_text h this t r value :
  wf h → get currentSelector h this = Some t → get currentOrder h this = Some r →
  (returns_new_state h (element this value) (t +:+ value) 1 "element"
   ∧ returns_new_state h (id this value) (t +:+ "#" +:+ value) 2 "id"
   ∧ returns_new_state h (class this value) (t +:+ "." +:+ value) 3 "class"
   ∧ returns_new_state h (attr this value) (t +:+ "[" +:+ value +:+ "]") 4 "attr"
   ∧ returns_new_state h (pseudoClass this value) (t +:+ ":" +:+ value) 5
       "pseudoClass"
   ∧ returns_new_state h (pseudoElement this value) (t +:+ "::" +:+ value) 6
       "pseudoElement")
  ∧ ((r < 1)%Z → ∃ l h', element this value h = (Return l, h'))
  ∧ ((r < 2)%Z → ∃ l h', id this value h = (Return l, h'))
  ∧ ((r ≤ 3)%Z → ∃ l h', class this value h = (Return l, h'))
  ∧ ((r ≤ 4)%Z → ∃ l h', attr this value h = (Return l, h'))
  ∧ ((r ≤ 5)%Z → ∃ l h', pseudoClass this value h = (Return l, h'))
  ∧ ((r < 6)%Z → ∃ l h', pseudoElement this value h = (Return l, h')).
Proof.
  intros Hwf Hget Hord.
  destruct (get_text_inv h this t Hwf Hget) as (o & Hl & <-).
  destruct (get_order_inv h this r Hwf Hord) as (o' & Hl' & <-).
  assert (o' = o) as -> by congruence.
  assert (∀ c, (order_of o ≤ rank c)%Z →
               (order_of o = rank c → unique c = false) →
               ∃ l h', call c this value h = (Return l, h')) as Hret.
  { intros c Hle Hun. eexists _, _.
    exact (call_returns c this value h o Hwf Hl Hun Hle). }
  split_and!.
  - exact (call_new_state Element this value h o Hwf Hl).
  - exact (call_new_state Id this value h o Hwf Hl).
  - exact (call_new_state Class this value h o Hwf Hl).
  - exact (call_new_state Attr this value h o Hwf Hl).
  - exact (call_new_state PseudoClass this value h o Hwf Hl).
  - exact (call_new_state PseudoElement this value h o Hwf Hl).
  - intros Hr. apply (Hret Element); cbn [rank unique]; lia.
  - intros Hr. apply (Hret Id); cbn [rank unique]; lia.
  - intros Hr. apply (Hret Class); cbn [rank unique]; [lia|done].
  - intros Hr. apply (Hret Attr); cbn [rank unique]; [lia|done].
  - intros Hr. apply (Hret PseudoClass); cbn [rank unique]; [lia|done].
  - intros Hr. apply (Hret PseudoElement); cbn [rank unique]; lia.
Qed.

Lemma fragment_methods_append_their_text_witness :
  let h := foldl exec initial_heap
             [CallFragment Element cssSelectorBuilder "a";
              CallCombine 1%nat "+" 1%nat] in
  (∃ l h', element 2%nat "b" h = (Return l, h')
     ∧ h !! l = None
     ∧ get currentSelector h' l = Some "a + ab"
     ∧ get currentOrder h' l = Some 1%Z
     ∧ get currentSelectorType h' l = Some "element")
  ∧ (∃ l h', id 1%nat "x" h = (Return l, h')
       ∧ h !! l = None
       ∧ get currentSelector h' l = Some "a#x"
       ∧ get currentOrder h' l = Some 2%Z
       ∧ get currentSelectorType h' l = Some "id")
  ∧ (∃ l h', class 1%nat "x" h = (Return l, h')
       ∧ h !! l = None
       ∧ get currentSelector h' l = Some "a.x"
       ∧ get currentOrder h' l = Some 3%Z
       ∧ get currentSelectorType h' l = Some "class")
  ∧ (∃ l h', attr 1%nat "x" h = (Return l, h')
       ∧ h !! l = None
       ∧ get currentSelector h' l = Some "a[x]"
       ∧ get currentOrder h' l = Some 4%Z
       ∧ get currentSelectorType h' l = Some "attr")
  ∧ (∃ l h', pseudoClass 1%nat "x" h = (Return l, h')
       ∧ h !! l = None
       ∧ get currentSelector h' l = Some "a:x"
       ∧ get currentOrder h' l = Some 5%Z
       ∧ get currentSelectorType h' l = Some "pseudoClass")
  ∧ (∃ l h', pseudoElement 1%nat "x" h = (Return l, h')
       ∧ h !! l = None
       ∧ get currentSelector h' l = Some "a::x"
       ∧ get currentOrder h' l = Some 6%Z
       ∧ get currentSelectorType h' l = Some "pseudoElement").
Proof.
  intros h.
  assert (wf h) as Hwf by (vm_compute; exact I).
  destruct (fragment_methods_append_their_text h 2%nat "a + a" 0%Z "b" Hwf)
    as ((He & _) & Hre & _); [vm_compute; reflexivity..|].
  destruct (fragment_methods_append_their_text h 1%nat "a" 1%Z "x" Hwf)
    as ((_ & Hi & Hc & Ha & Hpc & Hpe) & _ & Hri & Hrc & Hra & Hrpc & Hrpe);
    [vm_compute; reflexivity..|].
  split_and!.
  - destruct Hre as (l & h' & Hrun); [lia|].
    exists l, h'. split; [exact Hrun|exact (He l h' Hrun)].
  - destruct Hri as (l & h' & Hrun); [lia|].
    exists l, h'. split; [exact Hrun|exact (Hi l h' Hrun)].
  - destruct Hrc as (l & h' & Hrun); [lia|].
    exists l, h'. split; [exact Hrun|exact (Hc l h' Hrun)].
  - destruct Hra as (l & h' & Hrun); [lia|].
    exists l, h'. split; [exact Hrun|exact (Ha l h' Hrun)].
  - destruct Hrpc as (l & h' & Hrun); [lia|].
    exists l, h'. split; [exact Hrun|exact (Hpc l h' Hrun)].
  - destruct Hrpe as (l & h' & Hrun); [lia|].
    exists l, h'. split; [exact Hrun|exact (Hpe l h' Hrun)].
Defined.

(** C4: [combine(A, c, B)] returns a state whose text is A's text, a space,
    [c], a space, B's text, for any string [c]; nesting [combine] on either
    side gives the texts left to right with each combinator between single
    spaces. *)
Theorem combine_joins_texts h a b d ta tb td c1 c2 :
  wf h →
  get currentSelector h a = Some ta →
  get currentSelector h b = Some tb →
  get currentSelector h d = Some td →
  (∃ l h', combine a c1 b h = (Return l, h')
     ∧ get currentSelector h' l = Some (ta +:+ " " +:+ c1 +:+ " " +:+ tb))
  ∧ (∃ l h', (let* r := combine b c2 d in combine a c1 r) h = (Return l, h')
       ∧ get currentSelector h' l
         = Some (ta +:+ " " +:+ c1 +:+ " " +:+ tb +:+ " " +:+ c2 +:+ " " +:+ td))
  ∧ (∃ l h', (let* r := combine a c1 b in combine r c2 d) h = (Return l, h')
       ∧ get currentSelector h' l
         = Some (ta +:+ " " +:+ c1 +:+ " " +:+ tb +:+ " " +:+ c2 +:+ " " +:+ td)).
Proof.
  intros Hwf Ha Hb Hd.
  destruct (get_text_inv h a ta Hwf Ha) as (oa & Hla & <-).
  destruct (get_text_inv h b tb Hwf Hb) as (ob & Hlb & <-).
  destruct (get_text_inv h d td Hwf Hd) as (od & Hld & <-).
  split; [|split].
  - destruct (combine_returns a c1 b h oa ob Hwf Hla Hlb) as (Hrun & _ & Htext).
    eauto.
  - destruct (combine_returns b c2 d h ob od Hwf Hlb Hld) as (Hrun & Hwf1 & _).
    unfold bind. rewrite Hrun.
    match type of Hwf1 with Is_true (wf (h ++ [?o])) =>
      destruct (combine_returns a c1 (length h) (h ++ [o]) oa o Hwf1
                  (lookup_app_l_Some _ _ _ _ Hla) (lookup_last _ _))
        as (Hrun2 & _ & Htext2)
    end.
    eexists _, _. split; [exact Hrun2|]. exact Htext2.
  - destruct (combine_returns a c1 b h oa ob Hwf Hla Hlb) as (Hrun & Hwf1 & _).
    unfold bind. rewrite Hrun.
    match type of Hwf1 with Is_true (wf (h ++ [?o])) =>
      destruct (combine_returns (length h) c2 d (h ++ [o]) o od Hwf1
                  (lookup_last _ _) (lookup_app_l_Some _ _ _ _ Hld))
        as (Hrun2 & _ & Htext2)
    end.
    eexists _, _. split; [exact Hrun2|]. rewrite Htext2.
    unfold text_of at 1. cbn [currentSelector to_string].
    by rewrite !append_assoc.
Qed.

Lemma combine_joins_texts_witness :
  let h := foldl exec initial_heap
             [CallFragment Element cssSelectorBuilder "div";
              CallFragment Element cssSelectorBuilder "span";
              CallFragment Element cssSelectorBuilder "p"] in
  (∃ l h', combine 1%nat "+" 2%nat h = (Return l, h')
     ∧ get currentSelector h' l = Some "div + span")
  ∧ (∃ l h', (let* r := combine 2%nat "~" 3%nat in combine 1%nat "+" r) h
             = (Return l, h')
       ∧ get currentSelector h' l = Some "div + span ~ p")
  ∧ (∃ l h', (let* r := combine 1%nat "+" 2%nat in combine r "~" 3%nat) h
             = (Return l, h')
       ∧ get currentSelector h' l = Some "div + span ~ p").
Proof.
  intros h.
  refine (combine_joins_texts h 1%nat 2%nat 3%nat "div" "span" "p" "+" "~"
            _ _ _ _).
  - vm_compute. exact I.
  - vm_compute. reflexivity.
  - vm_compute. reflexivity.
  - vm_compute. reflexivity.
Defined.

Example doc_example_2 :
  let quote := String (Ascii.ascii_of_nat 34) EmptyString in
  run (let* a := element cssSelectorBuilder "a" in
       let* b := attr a ("href$=" +:+ quote +:+ ".png" +:+ quote) in
       let* c := pseudoClass b "focus" in
       stringify c)
  = Return (Some ("a[href$=" +:+ quote +:+ ".png" +:+ quote +:+ "]:focus")).
Proof. vm_compute. reflexivity. Qed.

Example doc_example_3 :
  run (let* a1 := element cssSelectorBuilder "div" in
       let* a2 := id a1 "main" in
       let* a3 := class a2 "container" in
       let* a4 := class a3 "draggable" in
       let* b1 := element cssSelectorBuilder "table" in
       let* b2 := id b1 "data" in
       let* c1 := element cssSelectorBuilder "tr" in
       let* c2 := pseudoClass c1 "nth-of-type(even)" in
       let* d1 := element cssSelectorBuilder "td" in
       let* d2 := pseudoClass d1 "nth-of-type(even)" in
       let* inner := combine c2 " " d2 in
       let* middle := combine b2 "~" inner in
       let* outer := combine a4 "+" middle in
       stringify outer)
  = Return (Some "div#main.container.draggable + table#data ~ tr:nth-of-type(even)   td:nth-of-type(even)").
Proof. vm_compute. reflexivity. Qed.

(** C5: class, attribute and pseudo-class parts may follow a part of their
    own category, any number of times, without an error, while an element,
    id or pseudo-element part is rejected when the chain already holds one
    (with the duplicate error directly after it);
    [id('main').class('container').class('editable')] stringifies to
    ['#main.container.editable']. *)
Theorem repeatable_categories_may_repeat :
  (∀ h this c t value,
     wf h → get currentOrder h this = Some (rank c) →
     get currentSelector h this = Some t → unique c = false →
     ∃ l h', call c this value h = (Return l, h')
       ∧ get currentSelector h' l = Some (t +:+ fragment c value)
       ∧ get currentOrder h' l = Some (rank c))
  ∧ (∀ h this c r values,
       wf h → get currentOrder h this = Some r → (r ≤ rank c)%Z →
       unique c = false →
       ∃ l h', chain ((λ v, (c, v)) <$> values) this h = (Return l, h'))
  ∧ (∀ h this c value,
       wf h → get currentOrder h this = Some (rank c) → unique c = true →
       fst (call c this value h) = Throw DuplicateUniquePartError)
  ∧ (∀ h this parts l h' c value,
       wf h → (this < length h)%nat → chain parts this h = (Return l, h') →
       unique c = true → c ∈ parts.*1 →
       ∃ e, fst (call c l value h') = Throw e)
  ∧ run (let* a := id cssSelectorBuilder "main" in
         let* b := class a "container" in
         let* c := class b "editable" in
         stringify c)
    = Return (Some "#main.container.editable").
Proof.
  split_and!.
  - intros h this c t value Hwf Hord Htext Hu.
    destruct (get_order_inv h this _ Hwf Hord) as (o & Hl & Ho).
    destruct (get_text_inv h this t Hwf Htext) as (o' & Hl' & <-).
    assert (o' = o) as -> by congruence.
    assert (call c this value h
            = (Return (length h), h ++ [fragment_object o c value])) as Hcall.
    { apply call_returns; [done|done|done|lia]. }
    destruct (call_new_state c this value h o Hwf Hl _ _ Hcall)
      as (_ & Ht & Hr & _).
    eauto.
  - intros h this c r values. revert h this r.
    induction values as [|v values IH]; intros h this r Hwf Hord Hle Hu.
    + by eexists _, _.
    + destruct (get_order_inv h this _ Hwf Hord) as (o & Hl & <-).
      rewrite fmap_cons. cbn [chain]. unfold bind.
      rewrite (call_returns c this v h o Hwf Hl (λ _, Hu) Hle).
      assert (wf (h ++ [fragment_object o c v])) as Hwf' by (by apply wf_app).
      apply (IH _ _ (rank c) Hwf'); [|lia|done].
      by rewrite (get_order _ _ _ Hwf' (lookup_last _ _)).
  - intros h this c value Hwf Hord Hu.
    destruct (get_order_inv h this _ Hwf Hord) as (o & Hl & Ho).
    rewrite (call_spec c this value h o Hwf Hl). cbn [fst]. unfold verdict.
    by rewrite Ho, Z.eqb_refl, Hu.
  - intros h this parts l h' c value Hwf Hthis Hrun Hu Hin.
    destruct (lookup_lt_is_Some_2 h this Hthis) as [o Hl].
    destruct (chain_inv parts this h o l h' Hwf Hl Hrun)
      as (Hwf' & o' & Hl' & _ & Hall & _).
    specialize (Hall c Hin).
    rewrite (call_spec c l value h' o' Hwf' Hl'). cbn [fst]. unfold verdict.
    rewrite Hu, andb_true_r.
    destruct (Z.eqb_spec (order_of o') (rank c)); [by eexists|].
    destruct (Z.ltb_spec (rank c) (order_of o')); [by eexists|lia].
  - vm_compute. reflexivity.
Qed.

Lemma repeatable_categories_may_repeat_witness :
  let h := snd (class cssSelectorBuilder "container" initial_heap) in
  (∃ l h', class 1%nat "editable" h = (Return l, h')
     ∧ get currentSelector h' l = Some ".container.editable"
     ∧ get currentOrder h' l = Some 3%Z)
  ∧ (∃ l h', chain [(Attr, "a"); (Attr, "b"); (Attr, "c")] 1%nat h
             = (Return l, h'))
  ∧ fst (id 1%nat "x" (snd (id cssSelectorBuilder "main" initial_heap)))
    = Throw DuplicateUniquePartError
  ∧ (∃ e, fst (id 2%nat "x"
                 (snd (chain [(Id, "main"); (Attr, "href")] cssSelectorBuilder
                         initial_heap)))
          = Throw e).
Proof.
  intros h. split_and!.
  - refine (proj1 repeatable_categories_may_repeat h 1%nat Class ".container"
              "editable" _ _ _ _).
    + vm_compute. exact I.
    + vm_compute. reflexivity.
    + vm_compute. reflexivity.
    + reflexivity.
  - refine (proj1 (proj2 repeatable_categories_may_repeat) h 1%nat Attr 3%Z
              ["a"; "b"; "c"] _ _ _ _).
    + vm_compute. exact I.
    + vm_compute. reflexivity.
    + simpl. lia.
    + reflexivity.
  - refine (proj1 (proj2 (proj2 repeatable_categories_may_repeat))
              (snd (id cssSelectorBuilder "main" initial_heap)) 1%nat Id
              "x" _ _ _).
    + vm_compute. exact I.
    + vm_compute. reflexivity.
    + reflexivity.
  - refine (proj1 (proj2 (proj2 (proj2 repeatable_categories_may_repeat)))
              initial_heap cssSelectorBuilder [(Id, "main"); (Attr, "href")]
              2%nat
              (snd (chain [(Id, "main"); (Attr, "href")] cssSelectorBuilder
                      initial_heap))
              Id "x" _ _ _ _ _).
    + exact I.
    + vm_compute. lia.
    + vm_compute. reflexivity.
    + reflexivity.
    + simpl. apply list_elem_of_here.
Defined.

(** ** Single-use read and frame properties *)

Lemma get_None {A} (field : object → option A) h l :
  h !! l = None → get field h l = None.
Proof.
  intros Hl. unfold get. destruct (length h); cbn [get_prop]; [done|].
  by rewrite Hl.
Qed.

Lemma text_of_empty o : currentSelector o = Some "" → text_of o = "".
Proof. unfold text_of. by intros ->. Qed.

(** C6: the first [stringify] returns the accumulated text and leaves the
    state with an empty text; every later [stringify] on that state, directly
    or after any further calls, returns the empty string. *)
Theorem stringify_is_single_use h this t :
  wf h → get currentSelector h this = Some t →
  ∃ h1, stringify this h = (Return (Some t), h1)
    ∧ get currentSelector h1 this = Some ""
    ∧ fst (stringify this h1) = Return (Some "")
    ∧ ∀ cmds, fst (stringify this (foldl exec h1 cmds)) = Return (Some "").
Proof.
  intros Hwf Hget.
  destruct (get_text_inv h this t Hwf Hget) as (o & Hl & <-).
  exists (alter clear_text this h).
  assert (wf (alter clear_text this h)) as Hwf1 by (by apply wf_alter).
  assert (alter clear_text this h !! this = Some (clear_text o)) as Hl1.
  { by rewrite list_lookup_alter_eq, Hl. }
  assert (∀ cmds, fst (stringify this (foldl exec (alter clear_text this h) cmds))
                  = Return (Some "")) as Hlater.
  { intros cmds.
    destruct (foldl_exec_lookup cmds _ this _ Hl1) as (o' & Hl' & _ & Hempty).
    rewrite stringify_spec. cbn [fst].
    rewrite (get_text _ this o' (wf_foldl_exec cmds _ Hwf1) Hl').
    by rewrite (text_of_empty o' (Hempty eq_refl)). }
  split_and!.
  - rewrite stringify_spec. by rewrite Hget.
  - by rewrite (get_text _ this _ Hwf1 Hl1).
  - exact (Hlater []).
  - exact Hlater.
Qed.

Lemma stringify_is_single_use_witness :
  let h := snd (chain [(Id, "main"); (Class, "container")] cssSelectorBuilder
                  initial_heap) in
  ∃ h1, stringify 2%nat h = (Return (Some "#main.container"), h1)
    ∧ get currentSelector h1 2%nat = Some ""
    ∧ fst (stringify 2%nat h1) = Return (Some "")
    ∧ ∀ cmds, fst (stringify 2%nat (foldl exec h1 cmds)) = Return (Some "").
Proof.
  intros h.
  refine (stringify_is_single_use h 2%nat "#main.container" _ _).
  - vm_compute. exact I.
  - vm_compute. reflexivity.
Defined.

(** C7: a state returned by [combine] reads order 0, so every fragment
    method called on it, then or after any further calls, returns. *)
Theorem combined_state_accepts_every_category h s1 c s2 :
  wf h →
  ∃ l h', combine s1 c s2 h = (Return l, h')
    ∧ get currentOrder h' l = Some 0%Z
    ∧ ∀ cmds cat value,
        ∃ l' h'', call cat l value (foldl exec h' cmds) = (Return l', h'').
Proof.
  intros Hwf. rewrite combine_spec. eexists _, _. split; [reflexivity|].
  assert (wf (h ++ [combined_object h s1 c s2])) as Hwf' by (by apply wf_app).
  split.
  - by rewrite (get_order _ _ _ Hwf' (lookup_last _ _)).
  - intros cmds cat value.
    destruct (foldl_exec_lookup cmds _ _ _ (lookup_last h (combined_object h s1 c s2)))
      as (o' & Hl' & Hord & _).
    assert (order_of o' = 0%Z) as Ho' by (unfold order_of; by rewrite Hord).
    pose proof (rank_pos cat).
    eexists _, _.
    apply (call_returns cat _ value _ o' (wf_foldl_exec cmds _ Hwf') Hl'); lia.
Qed.

Lemma combined_state_accepts_every_category_witness :
  let h := foldl exec initial_heap
             [CallFragment PseudoElement cssSelectorBuilder "after";
              CallFragment Element cssSelectorBuilder "span"] in
  ∃ l h', combine 1%nat "+" 2%nat h = (Return l, h')
    ∧ get currentOrder h' l = Some 0%Z
    ∧ ∀ cmds cat value,
        ∃ l' h'', call cat l value (foldl exec h' cmds) = (Return l', h'').
Proof.
  intros h.
  refine (combined_state_accepts_every_category h 1%nat "+" 2%nat _).
  vm_compute. exact I.
Defined.

(** C8: the fragment methods and [combine] leave every object of the heap
    as it was, whether they return or throw, and what they return is a new
    location; every property of every existing state reads as before.
    [stringify] replaces the text of its receiver by the empty string. *)
Theorem chaining_methods_do_not_mutate :
  (∀ h c this value l o,
     h !! l = Some o → snd (call c this value h) !! l = Some o)
  ∧ (∀ h s1 c s2 l o,
       h !! l = Some o → snd (combine s1 c s2 h) !! l = Some o)
  ∧ (∀ h c this value l h',
       wf h → (this < length h)%nat →
       call c this value h = (Return l, h') → h !! l = None)
  ∧ (∀ h s1 c s2 l h', combine s1 c s2 h = (Return l, h') → h !! l = None)
  ∧ (∀ A (field : object → option A) h cmd l,
       wf h → (l < length h)%nat → is_chaining cmd →
       get field (exec h cmd) l = get field h l)
  ∧ (∀ h this o,
       h !! this = Some o →
       snd (stringify this h) !! this = Some (clear_text o))
  ∧ (∀ h this t,
       wf h → get currentSelector h this = Some t → t ≠ "" →
       get currentSelector (snd (stringify this h)) this
       ≠ get currentSelector h this).
Proof.
  split_and!.
  - intros h c this value l o Hl.
    destruct (call_heap c this value h) as [txt ->].
    by apply lookup_app_l_Some.
  - intros h s1 c s2 l o Hl. rewrite combine_spec.
    by apply lookup_app_l_Some.
  - intros h c this value l h' Hwf Hthis Hcall.
    destruct (lookup_lt_is_Some_2 h this Hthis) as [o Hl].
    destruct (call_returns_inv c this value h o l h' Hwf Hl Hcall) as (-> & _).
    by apply lookup_ge_None_2.
  - intros h s1 c s2 l h'. rewrite combine_spec. intros [= <- _].
    by apply lookup_ge_None_2.
  - intros A field h cmd l Hwf Hlt Hc.
    destruct (lookup_lt_is_Some_2 h l Hlt) as [o Hl].
    destruct (exec_chaining h cmd Hc) as (o' & Hexec & Ho').
    rewrite (get_wf field h l o Hwf Hl).
    apply get_wf; [by apply wf_exec|].
    rewrite Hexec. by apply lookup_app_l_Some.
  - intros h this o Hl. rewrite stringify_spec. cbn [snd].
    change (alter clear_text this h !! this = Some (clear_text o)).
    by rewrite list_lookup_alter_eq, Hl.
  - intros h this t Hwf Hget Ht.
    destruct (get_text_inv h this t Hwf Hget) as (o & Hl & <-).
    rewrite stringify_spec. cbn [snd].
    change (get currentSelector (alter clear_text this h) this
            ≠ get currentSelector h this).
    rewrite Hget.
    rewrite (get_text _ this (clear_text o) (wf_alter h this Hwf)).
    + intros [= Heq]. by apply Ht.
    + by rewrite list_lookup_alter_eq, Hl.
Qed.

Lemma chaining_methods_do_not_mutate_witness :
  let h := snd (id cssSelectorBuilder "main" initial_heap) in
  fst (element 1%nat "div" h) = Throw OutOfOrderError
  ∧ snd (element 1%nat "div" h) !! 1%nat = h !! 1%nat
  ∧ snd (combine 1%nat ">" 1%nat h) !! 1%nat = h !! 1%nat
  ∧ (fst (class 1%nat "a" h) = Return 2%nat ∧ h !! 2%nat = None)
  ∧ get currentSelector (exec h (CallFragment Element 1%nat "div")) 1%nat
    = Some "#main"
  ∧ get currentOrder (exec h (CallFragment Element 1%nat "div")) 1%nat
    = Some 2%Z
  ∧ get currentSelector (snd (stringify 1%nat h)) 1%nat
    ≠ get currentSelector h 1%nat.
Proof.
  intros h.
  destruct chaining_methods_do_not_mutate
    as (Hcall & Hcombine & Hfresh & _ & Hget & _ & Hstringify).
  split_and!.
  - vm_compute. reflexivity.
  - refine (Hcall h Element 1%nat "div" 1%nat _ _). vm_compute. reflexivity.
  - refine (Hcombine h 1%nat ">" 1%nat 1%nat _ _). vm_compute. reflexivity.
  - vm_compute. reflexivity.
  - refine (Hfresh h Class 1%nat "a" 2%nat _ _ _ _).
    + vm_compute. exact I.
    + vm_compute. lia.
    + vm_compute. reflexivity.
  - refine (eq_trans (Hget _ currentSelector h
                        (CallFragment Element 1%nat "div") 1%nat _ _ _) _).
    + vm_compute. exact I.
    + vm_compute. lia.
    + exact I.
    + vm_compute. reflexivity.
  - refine (eq_trans (Hget _ currentOrder h
                        (CallFragment Element 1%nat "div") 1%nat _ _ _) _).
    + vm_compute. exact I.
    + vm_compute. lia.
    + exact I.
    + vm_compute. reflexivity.
  - refine (Hstringify h 1%nat "#main" _ _ _).
    + vm_compute. exact I.
    + vm_compute. reflexivity.
    + discriminate.
Defined.

(** C9: [stringify] changes no object but its receiver: all other states
    keep their text, the builder itself keeps its empty text, and a chain
    started on the builder afterwards starts from the empty text. *)
Theorem stringify_affects_only_its_receiver h this :
  wf h →
  (∀ l, l ≠ this → snd (stringify this h) !! l = h !! l)
  ∧ (∀ l, l ≠ this →
       get currentSelector (snd (stringify this h)) l = get currentSelector h l)
  ∧ snd (stringify this h) !! cssSelectorBuilder = Some builder_object
  ∧ get currentSelector (snd (stringify this h)) cssSelectorBuilder = Some ""
  ∧ (∀ c value, ∃ l h',
       call c cssSelectorBuilder value (snd (stringify this h)) = (Return l, h')
       ∧ get currentSelector h' l = Some (fragment c value)).
Proof.
  intros Hwf. rewrite stringify_spec. cbn [snd].
  change (alter _ this h) with (alter clear_text this h).
  assert (wf (alter clear_text this h)) as Hwf1 by (by apply wf_alter).
  pose proof (wf_root _ Hwf1) as Hroot.
  split_and!.
  - intros l Hne. by apply list_lookup_alter_ne.
  - intros l Hne.
    pose proof (list_lookup_alter_ne clear_text h this l (not_eq_sym Hne)) as Heq.
    destruct (h !! l) as [o|] eqn:Hl.
    + by rewrite (get_text _ l o Hwf1 Heq), (get_text h l o Hwf Hl).
    + by rewrite (get_None _ _ l Heq), (get_None _ h l Hl).
  - exact Hroot.
  - by rewrite (get_text _ _ _ Hwf1 Hroot).
  - intros c value. pose proof (rank_pos c).
    assert (call c cssSelectorBuilder value (alter clear_text this h)
            = (Return (length (alter clear_text this h)),
               alter clear_text this h
                 ++ [fragment_object builder_object c value])) as Hcall.
    { apply call_returns; [done|done| |]; unfold order_of; simpl; lia. }
    destruct (call_new_state c cssSelectorBuilder value _ _ Hwf1 Hroot _ _ Hcall)
      as (_ & Ht & _).
    eauto.
Qed.

Lemma stringify_affects_only_its_receiver_witness :
  let h := snd (chain [(Element, "div"); (Class, "a")] cssSelectorBuilder
                  initial_heap) in
  fst (stringify 2%nat h) = Return (Some "div.a")
  ∧ get currentSelector (snd (stringify 2%nat h)) 1%nat = Some "div"
  ∧ get currentSelector (snd (stringify cssSelectorBuilder h)) cssSelectorBuilder
    = Some ""
  ∧ fst (stringify 1%nat (snd (stringify 2%nat h))) = Return (Some "div").
Proof.
  intros h.
  assert (wf h) as Hwf by (vm_compute; exact I).
  split_and!.
  - vm_compute. reflexivity.
  - refine (eq_trans (proj1 (proj2 (stringify_affects_only_its_receiver h 2%nat Hwf))
                        1%nat _) _).
    + lia.
    + vm_compute. reflexivity.
  - exact (proj1 (proj2 (proj2 (proj2
             (stringify_affects_only_its_receiver h cssSelectorBuilder Hwf))))).
  - vm_compute. reflexivity.
Defined.

(** ** Rectangle *)

Example rectangle_doc_example :
  let r := Rect.Rectangle 10%float 20%float in
  Rect.width r = 10%float ∧ Rect.height r = 20%float
  ∧ Rect.getArea r tt = 200%float.
Proof. vm_compute. by split_and!. Qed.

(** C10: [Rectangle(width, height)] has the two fields it was given and its
    [getArea()] returns the binary64 product [width * height]. *)
Theorem Rectangle_fields_and_area (w h : float) :
  Rect.width (Rect.Rectangle w h) = w
  ∧ Rect.height (Rect.Rectangle w h) = h
  ∧ Rect.getArea (Rect.Rectangle w h) tt = PrimFloat.mul w h.
Proof. repeat split. Qed.

(** ** Further properties of the builder *)

Lemma append_empty_r (s : string) : s +:+ "" = s.
Proof.
  induction s as [|a s IH]; [done|].
  change (String a (s +:+ "") = String a s). by rewrite IH.
Qed.

(** X2: A fragment method has three outcomes, decided by the order [r] its
    receiver reads and the rank of the method: the duplicate error exactly
    when [r] is the rank of a unique category, the ordering error exactly
    when the rank is below [r], and a return in all other cases. *)
Theorem fragment_method_outcomes h this r c value :
  wf h → get currentOrder h this = Some r →
  (fst (call c this value h) = Throw DuplicateUniquePartError
     ↔ r = rank c ∧ unique c = true)
  ∧ (fst (call c this value h) = Throw OutOfOrderError ↔ (rank c < r)%Z)
  ∧ ((∃ l, fst (call c this value h) = Return l)
     ↔ (r ≤ rank c)%Z ∧ (r = rank c → unique c = false)).
Proof.
  intros Hwf Hget.
  destruct (get_order_inv h this r Hwf Hget) as (o & Hl & <-).
  rewrite (call_spec c this value h o Hwf Hl). cbn [fst]. unfold verdict.
  destruct (Z.eqb_spec (order_of o) (rank c)) as [He|Hne];
    destruct (unique c) eqn:Hu; cbn [andb];
    destruct (Z.ltb_spec (rank c) (order_of o)) as [Hlt|Hge];
    try lia; split_and!;
    (split;
     [ first [ intros [l Hr]; discriminate Hr
             | intros Hr; discriminate Hr
             | intros _; first [lia | split; [lia|]; intros; first [done|lia]] ]
     | first [ intros _; first [reflexivity | by eexists]
             | intros Hr; lia
             | intros [Hr1 Hr2];
               first [lia | discriminate Hr2 | discriminate (Hr2 He)] ] ]).
Qed.

Lemma fragment_method_outcomes_witness :
  let h := snd (class cssSelectorBuilder "a" initial_heap) in
  fst (call Id 1%nat "x" h) = Throw OutOfOrderError
  ∧ (∃ l, fst (call Attr 1%nat "x" h) = Return l).
Proof.
  intros h. split.
  - refine (proj2 (proj1 (proj2 (fragment_method_outcomes h 1%nat 3%Z Id "x"
                                   _ _))) _).
    + vm_compute. exact I.
    + vm_compute. reflexivity.
    + simpl. lia.
  - refine (proj2 (proj2 (proj2 (fragment_method_outcomes h 1%nat 3%Z Attr "x"
                                   _ _))) _).
    + vm_compute. exact I.
    + vm_compute. reflexivity.
    + simpl. split; [lia|]. intros; lia.
Defined.

Lemma chain_spec h this r t parts :
  wf h → get currentOrder h this = Some r → get currentSelector h this = Some t →
  match first_error r parts.*1 with
  | Some e => fst (chain parts this h) = Throw e
  | None =>
      ∃ l h', chain parts this h = (Return l, h')
        ∧ wf h'
        ∧ get currentSelector h' l = Some (t +:+ selector_text parts)
        ∧ get currentOrder h' l = Some (from_option rank r (last parts.*1))
  end.
Proof.
  revert h this r t.
  induction parts as [|[c v] parts IH]; intros h this r t Hwf Hord Htext.
  - cbn [fmap list_fmap first_error chain selector_text last from_option].
    exists this, h. by rewrite append_empty_r.
  - destruct (get_order_inv h this r Hwf Hord) as (o & Hl & <-).
    destruct (get_text_inv h this t Hwf Htext) as (o' & Hl' & <-).
    assert (o' = o) as -> by congruence.
    rewrite fmap_cons. cbn [fst first_error chain selector_text].
    unfold bind. rewrite (call_spec c this v h o Hwf Hl). unfold verdict.
    destruct (Z.eqb (order_of o) (rank c) && unique c); [done|].
    destruct (Z.ltb (rank c) (order_of o)); [done|].
    assert (wf (h ++ [fragment_object o c v])) as Hwf1 by (by apply wf_app).
    specialize (IH (h ++ [fragment_object o c v]) (length h) (rank c)
                  (text_of o +:+ fragment c v) Hwf1
                  (get_order _ _ _ Hwf1 (lookup_last _ _))
                  (get_text _ _ _ Hwf1 (lookup_last _ _))).
    destruct (first_error (rank c) parts.*1); [exact IH|].
    destruct IH as (l & h' & Hrun & Hwf' & Ht & Ho).
    exists l, h'. rewrite <- append_assoc. split_and!; try done.
    rewrite Ho, last_cons. by destruct (last parts.*1).
Qed.

Lemma first_error_None_iff r cats :
  first_error r cats = None
  ↔ Forall (may_follow_order r) cats ∧ StronglySorted may_precede cats.
Proof.
  revert r. induction cats as [|c cats IH]; intros r.
  - cbn [first_error]. split; [|done]. intros _. split; constructor.
  - cbn [first_error]. split.
    + destruct (Z.eqb_spec r (rank c)) as [He|Hne];
        destruct (unique c) eqn:Hu; cbn [andb]; try done;
        (destruct (Z.ltb_spec (rank c) r) as [Hlt|Hge]; [done|]);
        intros [Hall Hsorted]%IH.
      all: assert (Forall (may_precede c) cats) as Hprec
        by (eapply Forall_impl; [exact Hall|];
            intros c' [Hle Hun]; split; [done|]; intros <-; by apply Hun).
      all: split; [|by constructor].
      all: constructor;
        [ split; [lia|]; intros; first [done|lia]
        | eapply Forall_impl; [exact Hall|];
          intros c' [Hle Hun]; split; [lia|]; intros Hr;
          assert (rank c' = rank c) as Hcc by lia; by apply Hun ].
    + intros [Hall Hsorted].
      apply Forall_cons in Hall as [[Hle Hun] Hall].
      apply StronglySorted_inv in Hsorted as [Hsorted Hprec].
      destruct (Z.eqb_spec r (rank c)) as [He|Hne].
      * rewrite (Hun (eq_sym He)). cbn [andb].
        destruct (Z.ltb_spec (rank c) r); [lia|].
        apply IH. split; [|done].
        eapply Forall_impl; [exact Hprec|].
        intros c' [Hle' Hun']. split; [done|].
        intros Hr%rank_inj. subst c'. by rewrite (Hun (eq_sym He)).
      * cbn [andb]. destruct (Z.ltb_spec (rank c) r); [lia|].
        apply IH. split; [|done].
        eapply Forall_impl; [exact Hprec|].
        intros c' [Hle' Hun']. split; [done|].
        intros Hr%rank_inj. subst c'. by apply Hun'.
Qed.

(** X3: A whole chain, on the heap, does what its pure description says: it
    throws the first error of the one-step checks, and if there is none it
    returns a state whose text is the text of the starting state followed
    by the fragments of all parts in order, which [stringify] then
    returns, and whose order is the rank of the last part. *)
Theorem chain_follows_its_description h this r t parts :
  wf h → get currentOrder h this = Some r → get currentSelector h this = Some t →
  match first_error r parts.*1 with
  | Some e => fst (chain parts this h) = Throw e
  | None =>
      ∃ l h', chain parts this h = (Return l, h')
        ∧ get currentSelector h' l = Some (t +:+ selector_text parts)
        ∧ get currentOrder h' l = Some (from_option rank r (last parts.*1))
        ∧ fst (stringify l h') = Return (Some (t +:+ selector_text parts))
  end.
Proof.
  intros Hwf Hord Htext.
  pose proof (chain_spec h this r t parts Hwf Hord Htext) as Hspec.
  destruct (first_error r parts.*1); [exact Hspec|].
  destruct Hspec as (l & h' & Hrun & _ & Ht & Ho).
  exists l, h'. split_and!; try done.
  rewrite stringify_spec. cbn [fst]. by rewrite Ht.
Qed.

Lemma chain_follows_its_description_witness :
  (∃ l h', chain [(Element, "ul"); (Class, "nav"); (Class, "top");
                    (PseudoClass, "hover")] cssSelectorBuilder initial_heap
           = (Return l, h')
     ∧ get currentSelector h' l = Some "ul.nav.top:hover"
     ∧ get currentOrder h' l = Some 5%Z
     ∧ fst (stringify l h') = Return (Some "ul.nav.top:hover"))
  ∧ fst (chain [(Element, "ul"); (Attr, "x"); (Class, "nav"); (Id, "i")]
           cssSelectorBuilder initial_heap)
    = Throw OutOfOrderError.
Proof.
  split.
  - exact (chain_follows_its_description initial_heap cssSelectorBuilder 0%Z ""
             [(Element, "ul"); (Class, "nav"); (Class, "top");
              (PseudoClass, "hover")] I eq_refl eq_refl).
  - exact (chain_follows_its_description initial_heap cssSelectorBuilder 0%Z ""
             [(Element, "ul"); (Attr, "x"); (Class, "nav"); (Id, "i")]
             I eq_refl eq_refl).
Defined.

(** X4: The one-step checks are enough: a chain returns exactly when its
    sequence of categories is in order as a whole, every part being allowed
    after the order of the starting state and after every earlier part,
    adjacent or not (ranks never decrease, and no element, id or
    pseudo-element occurs twice). *)
Theorem chain_returns_iff_whole_sequence_ordered h this r parts :
  wf h → get currentOrder h this = Some r →
  (∃ l h', chain parts this h = (Return l, h'))
  ↔ Forall (may_follow_order r) parts.*1 ∧ StronglySorted may_precede parts.*1.
Proof.
  intros Hwf Hord.
  destruct (get_order_inv h this r Hwf Hord) as (o & Hl & _).
  pose proof (chain_spec h this r (text_of o) parts Hwf Hord
                (get_text h this o Hwf Hl)) as Hspec.
  rewrite <- first_error_None_iff.
  destruct (first_error r parts.*1) as [e|].
  - split; [|done]. intros (l & h' & Hrun). by rewrite Hrun in Hspec.
  - split; [done|]. intros _.
    destruct Hspec as (l & h' & Hrun & _). by exists l, h'.
Qed.

Lemma chain_returns_iff_whole_sequence_ordered_witness :
  ¬ (∃ l h', chain [(Id, "a"); (Class, "b"); (Attr, "c"); (Class, "d")]
               cssSelectorBuilder initial_heap = (Return l, h'))
  ∧ (∃ l h', chain [(Id, "a"); (Class, "b"); (Class, "c"); (Attr, "d")]
               cssSelectorBuilder initial_heap = (Return l, h')).
Proof.
  split.
  - intros Hret.
    destruct (proj1 (chain_returns_iff_whole_sequence_ordered initial_heap
                       cssSelectorBuilder 0%Z
                       [(Id, "a"); (Class, "b"); (Attr, "c"); (Class, "d")]
                       I eq_refl) Hret) as [_ Hsorted].
    apply StronglySorted_inv in Hsorted as [Hsorted _].
    apply StronglySorted_inv in Hsorted as [Hsorted _].
    apply StronglySorted_inv in Hsorted as [_ Hall].
    apply Forall_cons in Hall as [[Hle _] _]. simpl in Hle. lia.
  - refine (proj2 (chain_returns_iff_whole_sequence_ordered initial_heap
                     cssSelectorBuilder 0%Z
                     [(Id, "a"); (Class, "b"); (Class, "c"); (Attr, "d")]
                     I eq_refl) _).
    split.
    + repeat constructor; simpl; lia.
    + repeat constructor; simpl; try lia; intros; done.
Defined.

(** *** Invariants of the reachable heaps *)

Lemma exec_chaining_tagged h cmd :
  is_chaining cmd → ∃ o, exec h cmd = h ++ [o] ∧ tagged o.
Proof.
  destruct cmd as [c this value|s1 c s2|this]; cbn [exec is_chaining];
    [| |done]; intros _.
  - destruct (call_heap c this value h) as [txt ->].
    eexists. split; [done|]. right. by exists c.
  - rewrite combine_spec. eexists. split; [done|]. by left.
Qed.

Lemma tagged_clear_text o : tagged o → tagged (clear_text o).
Proof. by destruct o. Qed.

Lemma all_tagged_exec h cmd : all_tagged h → all_tagged (exec h cmd).
Proof.
  intros Hall l o Hne Hl. destruct (is_chaining cmd) eqn:Hc.
  - destruct (exec_chaining_tagged h cmd) as (o' & Hexec & Ho');
      [by rewrite Hc|].
    rewrite Hexec in Hl. apply lookup_app_Some in Hl as [Hl|[_ Hl]].
    + by apply (Hall l).
    + apply list_lookup_singleton_Some in Hl as [_ <-]. done.
  - destruct cmd as [| |this]; try discriminate.
    rewrite exec_stringify in Hl.
    destruct (decide (this = l)) as [->|Hne'].
    + rewrite list_lookup_alter_eq in Hl.
      destruct (h !! l) as [o0|] eqn:Hl0; [|done].
      injection Hl as <-. apply tagged_clear_text. by apply (Hall l).
    + rewrite list_lookup_alter_ne in Hl by done. by apply (Hall l).
Qed.

Lemma reachable_all_tagged h : reachable h → all_tagged h.
Proof.
  intros [cmds ->].
  assert (all_tagged initial_heap) as Hinit.
  { intros [|l] o Hne Hl; [done|]. by destruct l. }
  revert Hinit. generalize initial_heap.
  induction cmds as [|cmd cmds IH]; intros h Hall; [done|].
  cbn [foldl]. by apply IH, all_tagged_exec.
Qed.

Lemma reachable_order h l o :
  reachable h → h !! l = Some o →
  order_of o = 0%Z ∨ ∃ c, order_of o = rank c.
Proof.
  intros Hr Hl. destruct (decide (l = cssSelectorBuilder)) as [->|Hne].
  - rewrite (wf_root h (reachable_wf h Hr)) in Hl. injection Hl as <-. by left.
  - destruct (reachable_all_tagged h Hr l o Hne Hl) as [[Ho _]|(c & Ho & _)];
      unfold order_of; rewrite Ho; [by left|right; by exists c].
Qed.

(** X1: Whatever calls were made, every state reads a text (never
    [undefined]) and an order and type that go together: 0 and the empty
    tag, or the rank and tag of one category; the builder itself still
    reads the empty text and order 0. *)
Theorem reachable_states_read_consistent_properties h l :
  reachable h → (l < length h)%nat →
  (∃ s, get currentSelector h l = Some s)
  ∧ ((get currentOrder h l = Some 0%Z ∧ get currentSelectorType h l = Some "")
     ∨ ∃ c, get currentOrder h l = Some (rank c)
            ∧ get currentSelectorType h l = Some (kind c))
  ∧ get currentSelector h cssSelectorBuilder = Some ""
  ∧ get currentOrder h cssSelectorBuilder = Some 0%Z.
Proof.
  intros Hr Hlt. pose proof (reachable_wf h Hr) as Hwf.
  pose proof (wf_root h Hwf) as Hroot.
  destruct (lookup_lt_is_Some_2 h l Hlt) as [o Hl].
  split_and!.
  - exists (text_of o). by apply get_text.
  - rewrite !(get_wf _ h l o Hwf Hl).
    destruct (decide (l = cssSelectorBuilder)) as [->|Hne].
    + assert (o = builder_object) as -> by congruence. by left.
    + destruct (reachable_all_tagged h Hr l o Hne Hl) as [[Ho Ht]|(c & Ho & Ht)];
        rewrite Ho, Ht; [by left|right; by exists c].
  - by rewrite (get_text h _ _ Hwf Hroot).
  - by rewrite (get_order h _ _ Hwf Hroot).
Qed.

Lemma reachable_states_read_consistent_properties_witness :
  let h := foldl exec initial_heap
             [CallFragment Id cssSelectorBuilder "main";
              CallCombine 1%nat "+" 1%nat;
              CallStringify 1%nat;
              CallFragment Element 1%nat "div"] in
  (∃ s, get currentSelector h 2%nat = Some s)
  ∧ ((get currentOrder h 2%nat = Some 0%Z
      ∧ get currentSelectorType h 2%nat = Some "")
     ∨ ∃ c, get currentOrder h 2%nat = Some (rank c)
            ∧ get currentSelectorType h 2%nat = Some (kind c))
  ∧ get currentSelector h cssSelectorBuilder = Some ""
  ∧ get currentOrder h cssSelectorBuilder = Some 0%Z.
Proof.
  intros h.
  refine (reachable_states_read_consistent_properties h 2%nat _ _).
  - by eexists.
  - vm_compute. lia.
Defined.

(** *** What calls leave alone *)

Lemma exec_lookup_same h cmd l o :
  h !! l = Some o →
  ∃ o', exec h cmd !! l = Some o'
        ∧ currentOrder o' = currentOrder o
        ∧ currentSelectorType o' = currentSelectorType o
        ∧ (cmd ≠ CallStringify l → o' = o).
Proof.
  intros Hl. destruct (is_chaining cmd) eqn:Hc.
  - destruct (exec_chaining h cmd) as (o' & -> & _); [by rewrite Hc|].
    exists o. split; [by apply lookup_app_l_Some|done].
  - destruct cmd as [| |this]; try discriminate. rewrite exec_stringify.
    destruct (decide (this = l)) as [->|Hne].
    + exists (clear_text o). rewrite list_lookup_alter_eq, Hl.
      by split_and!.
    + exists o. by rewrite list_lookup_alter_ne.
Qed.

Lemma foldl_exec_lookup_same cmds h l o :
  h !! l = Some o →
  ∃ o', foldl exec h cmds !! l = Some o'
        ∧ currentOrder o' = currentOrder o
        ∧ currentSelectorType o' = currentSelectorType o
        ∧ (CallStringify l ∉ cmds → o' = o).
Proof.
  revert h o. induction cmds as [|cmd cmds IH]; intros h o Hl; cbn [foldl].
  - by exists o.
  - destruct (exec_lookup_same h cmd l o Hl) as (o1 & Hl1 & Ho1 & Ht1 & Hs1).
    destruct (IH _ _ Hl1) as (o2 & Hl2 & Ho2 & Ht2 & Hs2).
    exists o2. split_and!; [done|congruence|congruence|].
    intros Hnot. rewrite Hs2, Hs1; [done| |].
    + intros ->. apply Hnot, list_elem_of_here.
    + intros Hin. by apply Hnot, list_elem_of_further.
Qed.

(** X5: Through any sequence of calls, on any states, an existing state keeps
    its order and its type, and it keeps its text as long as [stringify] is
    not called on that very state. *)
Theorem state_changes_only_by_its_own_stringify h cmds l :
  wf h → (l < length h)%nat →
  get currentOrder (foldl exec h cmds) l = get currentOrder h l
  ∧ get currentSelectorType (foldl exec h cmds) l = get currentSelectorType h l
  ∧ (CallStringify l ∉ cmds →
     get currentSelector (foldl exec h cmds) l = get currentSelector h l).
Proof.
  intros Hwf Hlt.
  destruct (lookup_lt_is_Some_2 h l Hlt) as [o Hl].
  destruct (foldl_exec_lookup_same cmds h l o Hl) as (o' & Hl' & Ho & Ht & Hs).
  pose proof (wf_foldl_exec cmds h Hwf) as Hwf'.
  rewrite !(get_wf _ _ l o' Hwf' Hl'), !(get_wf _ h l o Hwf Hl).
  split_and!.
  - by rewrite Ho.
  - by rewrite Ht.
  - intros Hnot. by rewrite (Hs Hnot).
Qed.

Lemma state_changes_only_by_its_own_stringify_witness :
  let h := snd (chain [(Element, "a"); (Class, "b")] cssSelectorBuilder
                  initial_heap) in
  let cmds := [CallStringify 2%nat; CallFragment Attr 1%nat "x";
               CallCombine 1%nat ">" 2%nat; CallStringify cssSelectorBuilder] in
  get currentOrder (foldl exec h cmds) 1%nat = get currentOrder h 1%nat
  ∧ get currentSelectorType (foldl exec h cmds) 1%nat
    = get currentSelectorType h 1%nat
  ∧ get currentSelector (foldl exec h cmds) 1%nat = Some "a".
Proof.
  intros h cmds.
  destruct (state_changes_only_by_its_own_stringify h cmds 1%nat)
    as (Ho & Ht & Hs).
  - vm_compute. exact I.
  - vm_compute. lia.
  - split_and!; [exact Ho|exact Ht|].
    refine (eq_trans (Hs _) _); [|vm_compute; reflexivity].
    intros Hin. repeat (apply elem_of_cons in Hin as [Hin|Hin]; [discriminate|]).
    by apply elem_of_nil in Hin.
Defined.

(** X6: [stringify] clears the text but not the order: a fragment method
    called on a consumed state passes or fails the check exactly as before,
    and the state it returns has the fragment alone as its text. *)
Theorem consumed_state_keeps_its_order h this c value :
  wf h → (this < length h)%nat →
  fst (call c this value (snd (stringify this h))) = fst (call c this value h)
  ∧ ∀ l h', call c this value (snd (stringify this h)) = (Return l, h') →
            get currentSelector h' l = Some (fragment c value).
Proof.
  intros Hwf Hlt.
  destruct (lookup_lt_is_Some_2 h this Hlt) as [o Hl].
  rewrite stringify_spec. cbn [snd].
  change (alter _ this h) with (alter clear_text this h).
  assert (wf (alter clear_text this h)) as Hwf1 by (by apply wf_alter).
  assert (alter clear_text this h !! this = Some (clear_text o)) as Hl1.
  { by rewrite list_lookup_alter_eq, Hl. }
  split.
  - rewrite (call_spec c this value _ _ Hwf1 Hl1),
      (call_spec c this value h o Hwf Hl).
    cbn [fst]. by rewrite length_alter.
  - intros l h' Hcall.
    by destruct (call_new_state c this value _ _ Hwf1 Hl1 l h' Hcall)
      as (_ & Ht & _).
Qed.

Lemma consumed_state_keeps_its_order_witness :
  let h := snd (class cssSelectorBuilder "a" initial_heap) in
  fst (id 1%nat "x" (snd (stringify 1%nat h))) = Throw OutOfOrderError
  ∧ get currentSelector (snd (attr 1%nat "x" (snd (stringify 1%nat h)))) 2%nat
    = Some "[x]".
Proof.
  intros h. split.
  - refine (eq_trans (proj1 (consumed_state_keeps_its_order h 1%nat Id "x" _ _))
              _).
    + vm_compute. exact I.
    + vm_compute. lia.
    + vm_compute. reflexivity.
  - refine (proj2 (consumed_state_keeps_its_order h 1%nat Attr "x" _ _)
              2%nat _ _).
    + vm_compute. exact I.
    + vm_compute. lia.
    + vm_compute. reflexivity.
Defined.

(** *** Where a selector starts, ends and branches *)

(** X7: [element] only starts a selector: in a heap reached by calls of the
    builder, it returns exactly on the states that read order 0, the
    builder itself and the results of [combine]. *)
Theorem element_only_starts_a_selector h this value :
  reachable h → (this < length h)%nat →
  (∃ l h', element this value h = (Return l, h'))
  ↔ get currentOrder h this = Some 0%Z.
Proof.
  intros Hr Hlt. pose proof (reachable_wf h Hr) as Hwf.
  destruct (lookup_lt_is_Some_2 h this Hlt) as [o Hl].
  rewrite (get_order h this o Hwf Hl). split.
  - intros (l & h' & Hcall).
    destruct (call_returns_inv Element this value h o l h' Hwf Hl Hcall)
      as (_ & _ & Hle & Hun).
    cbn [rank unique] in Hle, Hun.
    destruct (reachable_order h this o Hr Hl) as [->|[c Hc]]; [done|].
    pose proof (rank_pos c).
    assert (order_of o = 1%Z) as H1 by lia. by specialize (Hun H1).
  - intros [= Ho]. eexists _, _.
    apply (call_returns Element this value h o Hwf Hl); cbn [rank]; lia.
Qed.

Lemma element_only_starts_a_selector_witness :
  let h := foldl exec initial_heap
             [CallFragment Element cssSelectorBuilder "a";
              CallCombine 1%nat "+" 1%nat] in
  (∃ l h', element 2%nat "b" h = (Return l, h'))
  ∧ ¬ (∃ l h', element 1%nat "b" h = (Return l, h')).
Proof.
  intros h. split.
  - refine (proj2 (element_only_starts_a_selector h 2%nat "b" _ _) _).
    + by eexists.
    + vm_compute. lia.
    + vm_compute. reflexivity.
  - intros Hret.
    refine (_ (proj1 (element_only_starts_a_selector h 1%nat "b" _ _) Hret)).
    + vm_compute. discriminate.
    + by eexists.
    + vm_compute. lia.
Defined.

(** X8: A pseudo-element ends a selector: on a state returned by
    [pseudoElement] every fragment method throws, the duplicate error for
    [pseudoElement] and the ordering error for the five others. *)
Theorem nothing_follows_a_pseudo_element h this value l h' c value' :
  wf h → (this < length h)%nat →
  pseudoElement this value h = (Return l, h') →
  fst (call c l value' h')
  = Throw (match c with
           | PseudoElement => DuplicateUniquePartError
           | _ => OutOfOrderError
           end).
Proof.
  intros Hwf Hlt Hcall.
  destruct (lookup_lt_is_Some_2 h this Hlt) as [o Hl].
  destruct (call_returns_inv PseudoElement this value h o l h' Hwf Hl Hcall)
    as (-> & -> & _ & _).
  assert (wf (h ++ [fragment_object o PseudoElement value])) as Hwf'
    by (by apply wf_app).
  rewrite (call_spec c _ value' _ _ Hwf' (lookup_last _ _)).
  by destruct c.
Qed.

Lemma nothing_follows_a_pseudo_element_witness :
  fst (pseudoClass 2%nat "hover"
         (snd (chain [(Element, "p"); (PseudoElement, "first-line")]
                 cssSelectorBuilder initial_heap)))
  = Throw OutOfOrderError.
Proof.
  refine (nothing_follows_a_pseudo_element
            (snd (element cssSelectorBuilder "p" initial_heap)) 1%nat
            "first-line" 2%nat
            (snd (chain [(Element, "p"); (PseudoElement, "first-line")]
                    cssSelectorBuilder initial_heap))
            PseudoClass "hover" _ _ _).
  - vm_compute. exact I.
  - vm_compute. lia.
  - vm_compute. reflexivity.
Defined.

(** X9: A state can be extended more than once: after a first method returned
    on it, a second one that the check allows returns another new state,
    and both results have the text of the shared state followed by their
    own fragment, while the shared state keeps its text. *)
Theorem sibling_selectors_are_independent h this t r c1 v1 c2 v2 l1 h1 :
  wf h → get currentSelector h this = Some t →
  get currentOrder h this = Some r →
  call c1 this v1 h = (Return l1, h1) →
  (r ≤ rank c2)%Z → (r = rank c2 → unique c2 = false) →
  ∃ l2 h2, call c2 this v2 h1 = (Return l2, h2)
    ∧ l2 ≠ l1
    ∧ get currentSelector h2 l1 = Some (t +:+ fragment c1 v1)
    ∧ get currentSelector h2 l2 = Some (t +:+ fragment c2 v2)
    ∧ get currentSelector h2 this = Some t.
Proof.
  intros Hwf Htext Hord Hcall Hle Hun.
  destruct (get_text_inv h this t Hwf Htext) as (o & Hl & <-).
  destruct (get_order_inv h this r Hwf Hord) as (o' & Hl' & <-).
  assert (o' = o) as -> by congruence.
  destruct (call_returns_inv c1 this v1 h o l1 h1 Hwf Hl Hcall)
    as (-> & -> & _ & _).
  assert (wf (h ++ [fragment_object o c1 v1])) as Hwf1 by (by apply wf_app).
  pose proof (lookup_app_l_Some _ [fragment_object o c1 v1] _ _ Hl) as Hl1.
  pose proof (call_returns c2 this v2 _ o Hwf1 Hl1 Hun Hle) as Hcall2.
  assert (wf ((h ++ [fragment_object o c1 v1]) ++ [fragment_object o c2 v2]))
    as Hwf2 by (by apply wf_app).
  eexists _, _. split; [exact Hcall2|].
  split_and!.
  - rewrite length_app. simpl. lia.
  - by rewrite (get_text _ (length h) (fragment_object o c1 v1) Hwf2
                  (lookup_app_l_Some _ _ _ _ (lookup_last _ _))).
  - by rewrite (get_text _ _ _ Hwf2 (lookup_last _ _)).
  - by rewrite (get_text _ this o Hwf2 (lookup_app_l_Some _ _ _ _ Hl1)).
Qed.

Lemma sibling_selectors_are_independent_witness :
  let h := snd (element cssSelectorBuilder "li" initial_heap) in
  ∃ l2 h2, call PseudoClass 1%nat "hover" (snd (class 1%nat "odd" h))
           = (Return l2, h2)
    ∧ l2 ≠ 2%nat
    ∧ get currentSelector h2 2%nat = Some "li.odd"
    ∧ get currentSelector h2 l2 = Some "li:hover"
    ∧ get currentSelector h2 1%nat = Some "li".
Proof.
  intros h.
  refine (sibling_selectors_are_independent h 1%nat "li" 1%Z Class "odd"
            PseudoClass "hover" 2%nat (snd (class 1%nat "odd" h)) _ _ _ _ _ _).
  - vm_compute. exact I.
  - vm_compute. reflexivity.
  - vm_compute. reflexivity.
  - vm_compute. reflexivity.
  - simpl. lia.
  - simpl. lia.
Defined.
